(** * slowqueries.py: the slow-query log monitor

    A shallow embedding of [src/slowqueries.py] (a Python 2 program) and the
    properties of its stream reassembler, pattern library, heuristic engine
    and dispatcher.

    Python byte strings are lists of 8-bit characters; dictionaries are
    finite maps; the [re] module is embedded as a backtracking matcher over
    a small pattern syntax that covers the constructs the program's three
    patterns use.  Numbers are exact rationals: neither the rounding nor
    the range of Python's floats is modelled. *)

From Stdlib Require Import Ascii String List ZArith NArith QArith Lia Lqa Bool.
From stdpp Require Import gmap strings fin_maps.
Import ListNotations.

Local Open Scope list_scope.

(** ** Byte strings *)

Definition str := list ascii.

Definition b (s : string) : str := list_ascii_of_string s.

Definition NL : ascii := "010"%char.

Definition code (c : ascii) : N := N_of_ascii c.

Definition between (lo hi : N) (c : ascii) : bool :=
  ((lo <=? code c) && (code c <=? hi))%N.

(** ** The [re] module *)

Module re.

(** Compilation flags, as passed to [re.compile]. *)
Record flags := Flags { MULTILINE : bool; IGNORECASE : bool; UNICODE : bool }.

(** [\s] without [re.UNICODE]: the six ASCII blanks. *)
Definition is_space (c : ascii) : bool :=
  between 9 13 c || (code c =? 32)%N.

(** [\s] with [re.UNICODE] on a byte string: the Unicode white space
    among the first 256 code points. *)
Definition is_uni_space (c : ascii) : bool :=
  between 9 13 c || between 28 32 c || (code c =? 133)%N || (code c =? 160)%N.

Definition lower_ascii (c : ascii) : ascii :=
  if between 65 90 c then ascii_of_N (code c + 32) else c.

Definition lower_unicode (c : ascii) : ascii :=
  if between 65 90 c || (between 192 222 c && negb (code c =? 215)%N)
  then ascii_of_N (code c + 32) else c.

(** Case folding applied to both the subject character and the pattern
    literal when [re.IGNORECASE] is set. *)
Definition fold_case (f : flags) (c : ascii) : ascii :=
  if IGNORECASE f then (if UNICODE f then lower_unicode c else lower_ascii c)
  else c.

(** One-character pattern items. *)
Inductive atom :=
| Lit (c : ascii)                 (* a literal character *)
| In_ (set : ascii -> bool)       (* a bracketed set, [[0-9]] or [[^;]] *)
| Space                           (* [\s] *)
| Any.                            (* [.], anything but a line break *)

Definition atom_match (f : flags) (a : atom) (c : ascii) : bool :=
  match a with
  | Lit l => Ascii.eqb (fold_case f c) (fold_case f l)
  | In_ set => set (fold_case f c)
  | Space => if UNICODE f then is_uni_space c else is_space c
  | Any => negb (Ascii.eqb c NL)
  end.

(** Patterns.  Every repetition in the program's patterns is a greedy
    repetition of a one-character item. *)
Inductive regex :=
| Eps
| Chr (a : atom)
| Rep (a : atom) (lo : nat) (hi : option nat)   (* a{lo,hi}, greedy *)
| Bol                                           (* ^ *)
| Eol                                           (* $ *)
| Cat (r1 r2 : regex)
| Alt (r1 r2 : regex)                           (* r1|r2 *)
| Group (name : string) (r : regex)             (* (?P<name>r) *)
| Paren (r : regex).                            (* (r), a numbered group *)

Definition captures := list (string * str).

(** A position in the subject: the characters already passed (latest
    first), the characters ahead, and the named groups closed so far
    (latest first). *)
Record mstate := MState { seen : str; ahead : str; marks : captures }.

Definition at_bol (f : flags) (seen : str) : bool :=
  match seen with
  | [] => true
  | c :: _ => MULTILINE f && Ascii.eqb c NL
  end.

Definition at_eol (f : flags) (ahead : str) : bool :=
  match ahead with
  | [] => true
  | c :: t => Ascii.eqb c NL && (MULTILINE f || match t with [] => true | _ => false end)
  end.

Definition more (hi : option nat) : bool :=
  match hi with Some 0 => false | _ => true end.

Definition dec (hi : option nat) : option nat :=
  match hi with Some n => Some (pred n) | None => None end.

(** Greedy repetition: take one more character when possible, and give
    it back when the rest of the pattern fails. *)
Fixpoint rep_match (f : flags) (a : atom) (lo : nat) (hi : option nat)
    (k : mstate -> option mstate) (sn ah : str) (mk : captures) : option mstate :=
  let stop := if Nat.eqb lo 0 then k (MState sn ah mk) else None in
  match ah with
  | c :: t =>
      if atom_match f a c && more hi then
        match rep_match f a (pred lo) (dec hi) k (c :: sn) t mk with
        | Some m => Some m
        | None => stop
        end
      else stop
  | [] => stop
  end.

(** The text between two positions of the same subject. *)
Definition span (from to : mstate) : str :=
  firstn (length (ahead from) - length (ahead to)) (ahead from).

Definition close_group (name : string) (from to : mstate) : mstate :=
  MState (seen to) (ahead to) ((name, span from to) :: marks to).

(** The backtracking matcher, in continuation-passing style: [k] is the
    rest of the pattern. *)
Fixpoint rmatch (f : flags) (r : regex) (k : mstate -> option mstate)
    (s : mstate) : option mstate :=
  match r with
  | Eps => k s
  | Chr a =>
      match ahead s with
      | c :: t => if atom_match f a c then k (MState (c :: seen s) t (marks s)) else None
      | [] => None
      end
  | Rep a lo hi => rep_match f a lo hi k (seen s) (ahead s) (marks s)
  | Bol => if at_bol f (seen s) then k s else None
  | Eol => if at_eol f (ahead s) then k s else None
  | Cat r1 r2 => rmatch f r1 (rmatch f r2 k) s
  | Alt r1 r2 =>
      match rmatch f r1 k s with
      | Some m => Some m
      | None => rmatch f r2 k s
      end
  | Group name r1 => rmatch f r1 (fun s' => k (close_group name s s')) s
  | Paren r1 => rmatch f r1 k s
  end.

(** A compiled pattern. *)
Record pattern := Compile { pat : regex; flg : flags }.

(** A match object: where it starts and ends, and its groups. *)
Record match_object := Match { m_start : nat; m_end : nat; m_groups : captures }.

Definition match_here (p : pattern) (sn ah : str) : option match_object :=
  match rmatch (flg p) (pat p) Some (MState sn ah []) with
  | Some s => Some (Match (length sn) (length (seen s)) (marks s))
  | None => None
  end.

(** [p.match(s)]: a match at the start of [s] only. *)
Definition match_ (p : pattern) (s : str) : option match_object :=
  match_here p [] s.

Fixpoint search_from (p : pattern) (sn ah : str) : option match_object :=
  match match_here p sn ah with
  | Some m => Some m
  | None =>
      match ah with
      | [] => None
      | c :: t => search_from p (c :: sn) t
      end
  end.

(** [p.search(s)]: the match at the leftmost position that has one. *)
Definition search (p : pattern) (s : str) : option match_object :=
  search_from p [] s.

(** [p.finditer(s)]: the successive non-overlapping matches.  [skip]
    counts the positions still covered by the previous match. *)
Fixpoint finditer_from (p : pattern) (skip : nat) (sn ah : str) : list match_object :=
  match skip with
  | S n =>
      match ah with
      | [] => []
      | c :: t => finditer_from p n (c :: sn) t
      end
  | O =>
      match match_here p sn ah with
      | Some m =>
          m :: match ah with
               | [] => []
               | c :: t => finditer_from p (m_end m - m_start m - 1) (c :: sn) t
               end
      | None =>
          match ah with
          | [] => []
          | c :: t => finditer_from p 0 (c :: sn) t
          end
      end
  end.

Definition finditer (p : pattern) (s : str) : list match_object :=
  finditer_from p 0 [] s.

(** [m.groupdict()].  In the program's patterns every named group lies
    on the only path through the pattern, so every group of a match has a
    text; the latest text of a group wins. *)
Definition groupdict (m : match_object) : gmap string str :=
  list_to_map (m_groups m).

(** Pattern-building helpers. *)
Fixpoint lits (s : str) : regex :=
  match s with
  | [] => Eps
  | c :: t => Cat (Chr (Lit c)) (lits t)
  end.

Fixpoint seq (rs : list regex) : regex :=
  match rs with
  | [] => Eps
  | r :: rs' => Cat r (seq rs')
  end.

Definition digit : atom := In_ (between 48 57).          (* [0-9] *)
Definition star (a : atom) : regex := Rep a 0 None.       (* a* *)
Definition plus (a : atom) : regex := Rep a 1 None.       (* a+ *)
Definition times (a : atom) (lo hi : nat) : regex := Rep a lo (Some hi).

(** An upper bound of a repetition, when there is one. *)
Definition within (hi : option nat) (n : nat) : Prop :=
  match hi with Some h => n <= h | None => True end.

(** What it means for a pattern to match the text [txt] found between
    the passed characters [sn] and the following ones [post], taking the
    groups from [mk] to [mk']: the relation the matcher decides. *)
Fixpoint matches (f : flags) (r : regex) (sn txt post : str)
    (mk mk' : captures) : Prop :=
  match r with
  | Eps => txt = [] /\ mk' = mk
  | Chr a => exists c, txt = [c] /\ atom_match f a c = true /\ mk' = mk
  | Rep a lo hi =>
      forallb (atom_match f a) txt = true /\ lo <= length txt /\
      within hi (length txt) /\ mk' = mk
  | Bol => txt = [] /\ at_bol f sn = true /\ mk' = mk
  | Eol => txt = [] /\ at_eol f post = true /\ mk' = mk
  | Cat r1 r2 =>
      exists t1 t2 mk1, txt = t1 ++ t2 /\
        matches f r1 sn t1 (t2 ++ post) mk mk1 /\
        matches f r2 (rev t1 ++ sn) t2 post mk1 mk'
  | Alt r1 r2 => matches f r1 sn txt post mk mk' \/ matches f r2 sn txt post mk mk'
  | Group name r1 => exists mk1, matches f r1 sn txt post mk mk1 /\ mk' = (name, txt) :: mk1
  | Paren r1 => matches f r1 sn txt post mk mk'
  end.

End re.

(** ** The program's patterns *)

Definition TIME_PATTERN : re.regex :=
  re.seq [re.Bol; re.lits (b "#"); re.plus re.Space; re.lits (b "Time:"); re.plus re.Space;
          re.Group "date" (re.times re.digit 6 6);
          re.plus re.Space;
          re.Group "time" (re.seq [re.times re.digit 1 2; re.lits (b ":");
                                   re.times re.digit 1 2; re.lits (b ":");
                                   re.times re.digit 1 2]);
          re.Eol].

Definition USER_HOST_PATTERN : re.regex :=
  re.seq [re.Bol; re.lits (b "# User@Host: ");
          re.Group "user_host" (re.seq [re.star re.Any; re.lits (b " @ "); re.star re.Any]);
          re.Eol].

Definition QUERY_STATS_PATTERN : re.regex :=
  re.seq [re.Bol; re.lits (b "# Query_time: ");
          re.Group "query_seconds" (re.seq [re.plus re.digit; re.lits (b "."); re.plus re.digit]);
          re.plus re.Space;
          re.lits (b "Lock_time: ");
          re.Group "lock_time" (re.seq [re.plus re.digit; re.lits (b "."); re.plus re.digit]);
          re.plus re.Space;
          re.lits (b "Rows_sent: ");
          re.Group "rows_sent" (re.plus re.digit);
          re.plus re.Space;
          re.lits (b "Rows_examined: ");
          re.Group "rows_examined" (re.plus re.digit);
          re.Eol].

Definition not_semicolon : re.atom := re.In_ (fun c => negb (Ascii.eqb c ";")).   (* [^;] *)

Definition QUERY_PATTERN : re.regex :=
  re.seq [re.Bol; re.star re.Space;
          re.Group "query" (re.seq [re.plus not_semicolon; re.lits (b ";")]);
          re.Eol].

Definition IGNORE_PATTERNS : list re.regex :=
  [ re.seq [re.Bol; re.star re.Space; re.lits (b "use "); re.star re.Any; re.lits (b ";"); re.Eol];
    re.seq [re.Bol; re.star re.Space; re.lits (b "SET timestamp="); re.plus re.digit;
            re.lits (b ";"); re.Eol] ].

(** ['|'.join(map(lambda x: '(%s)' % x, patterns))], for a non-empty list. *)
Fixpoint join_alternatives (rs : list re.regex) : re.regex :=
  match rs with
  | [] => re.Eps
  | [r] => re.Paren r
  | r :: rs' => re.Alt (re.Paren r) (join_alternatives rs')
  end.

Definition HEADER_REGEX : re.pattern :=
  re.Compile (re.seq [TIME_PATTERN; re.lits [NL]; USER_HOST_PATTERN; re.lits [NL];
                      QUERY_STATS_PATTERN])
             (re.Flags true false false).

Definition QUERY_REGEX : re.pattern :=
  re.Compile QUERY_PATTERN (re.Flags true true true).

Definition IGNORE_REGEX : re.pattern :=
  re.Compile (join_alternatives IGNORE_PATTERNS) (re.Flags true false false).

(** ** Numbers and exceptions *)

Inductive exn := KeyError | ValueError | ZeroDivisionError.

Inductive result (A : Type) :=
| Ok (a : A)
| Raise (e : exn).
Arguments Ok {A} a.
Arguments Raise {A} e.

Definition bind {A B} (x : result A) (f : A -> result B) : result B :=
  match x with
  | Ok a => f a
  | Raise e => Raise e
  end.

Notation "'do' x <- e1 ; e2" := (bind e1 (fun x => e2))
  (at level 10, x name, e1 at level 100, e2 at level 200).

(** [header['key']] *)
Definition getitem (d : gmap string str) (key : string) : result str :=
  match d !! key with
  | Some v => Ok v
  | None => Raise KeyError
  end.

Definition digit_val (c : ascii) : option Z :=
  if between 48 57 c then Some (Z.of_N (code c) - 48)%Z else None.

(** The value of a run of decimal digits, most significant first. *)
Fixpoint digits_val (acc : Z) (s : str) : option Z :=
  match s with
  | [] => Some acc
  | c :: t =>
      match digit_val c with
      | Some d => digits_val (10 * acc + d)%Z t
      | None => None
      end
  end.

Fixpoint lstrip (s : str) : str :=
  match s with
  | c :: t => if re.is_space c then lstrip t else s
  | [] => []
  end.

Definition strip (s : str) : str := rev (lstrip (rev (lstrip s))).

(** An optional sign in front of a numeral. *)
Definition split_sign (s : str) : bool * str :=
  match s with
  | "-"%char :: t => (true, t)
  | "+"%char :: t => (false, t)
  | _ => (false, s)
  end.

Definition nonempty_digits (s : str) : option Z :=
  match s with
  | [] => None
  | _ => digits_val 0 s
  end.

(** [int(s)] on a string: blanks around, an optional sign, decimal
    digits; anything else is a [ValueError]. *)
Definition py_int (s : str) : result Z :=
  let '(neg, body) := split_sign (strip s) in
  match nonempty_digits body with
  | Some n => Ok (if neg then (- n)%Z else n)
  | None => Raise ValueError
  end.

(** The text before the first point, and the text after it if there is one. *)
Fixpoint split_point (s : str) : str * option str :=
  match s with
  | [] => ([], None)
  | c :: t =>
      if Ascii.eqb c "." then ([], Some t)
      else let '(ip, fp) := split_point t in (c :: ip, fp)
  end.

Definition pow10 (n : nat) : positive := Pos.pow 10 (Pos.of_nat n).

(** The rational written [ip.fp]; one of the two sides may be empty. *)
Definition decimal (ip fp : str) : option Q :=
  match ip, fp with
  | [], [] => None
  | _, _ =>
      match digits_val 0 ip, digits_val 0 fp with
      | Some i, Some fr =>
          Some (match fp with
                | [] => inject_Z i
                | _ => Qmake (i * Zpos (pow10 (length fp)) + fr) (pow10 (length fp))
                end)
      | _, _ => None
      end
  end.

(** [float(s)] on a string, for plain decimal numerals: blanks around, an
    optional sign, digits with an optional point.  The exponent, [inf]
    and [nan] spellings that Python also reads are left out of the
    embedding and land on [ValueError] here; no pattern of the program
    lets them through.  The value is the exact rational. *)
Definition py_float (s : str) : result Q :=
  let '(neg, body) := split_sign (strip s) in
  let '(ip, fp) := split_point body in
  match decimal ip (match fp with Some x => x | None => [] end) with
  | Some q => Ok (if neg then Qopp q else q)
  | None => Raise ValueError
  end.

(** [x / y] on numbers. *)
Definition py_div (x y : Q) : result Q :=
  if Qeq_bool y 0 then Raise ZeroDivisionError else Ok (x / y)%Q.

Definition Qlt_bool (x y : Q) : bool := negb (Qle_bool y x).

(** ** Heuristics *)

Inductive level := L_debug | L_info | L_warning | L_error | L_critical.

#[global] Instance level_eq_dec : EqDecision level.
Proof. solve_decision. Defined.

(** The dictionary [NOTIFICATION_LEVELS]. *)
Definition NOTIFICATION_LEVELS (l : level) : Z :=
  match l with
  | L_debug => 0
  | L_info => 1
  | L_warning => 2
  | L_error => 3
  | L_critical => 4
  end.

(** The subclasses of [Heuristic]; each one brings its [calculate_val]. *)
Inductive heuristic_class :=
| SlowQuery
| TooManyRowsReturned
| TooManyRowsExamined
| RatioOfExaminedRowsTooHigh
| LongLockTime.

Record Heuristic := { class_of : heuristic_class; ranges : list (level * Q * option Q) }.

(** [Heuristic.__init__] *)
Definition Heuristic_init (c : heuristic_class)
    (min_val max_debug_val max_info_val max_warning_val max_error_val : Q) : Heuristic :=
  {| class_of := c;
     ranges := rev [ (L_debug, min_val, Some max_debug_val);
                     (L_info, max_debug_val, Some max_info_val);
                     (L_warning, max_info_val, Some max_warning_val);
                     (L_error, max_warning_val, Some max_error_val);
                     (L_critical, max_error_val, None) ] |}.

(** The loop of [Heuristic.check]. *)
Fixpoint check_ranges (rs : list (level * Q * option Q)) (val : Q) : option level :=
  match rs with
  | [] => None
  | (name, min, max) :: rs' =>
      if Qle_bool min val && match max with Some mx => Qlt_bool val mx | None => true end
      then Some name
      else check_ranges rs' val
  end.

Definition check (self : Heuristic) (val : Q) : option level :=
  check_ranges (ranges self) val.

Definition calculate_val (c : heuristic_class) (header event : gmap string str) : result Q :=
  match c with
  | SlowQuery =>
      do s <- getitem header "query_seconds"; py_float s
  | TooManyRowsReturned =>
      do s <- getitem header "rows_sent"; do n <- py_int s; Ok (inject_Z n)
  | TooManyRowsExamined =>
      do s <- getitem header "rows_examined"; do n <- py_int s; Ok (inject_Z n)
  | RatioOfExaminedRowsTooHigh =>
      do s <- getitem header "rows_sent";
      do n <- py_int s;
      if (n >? 0)%Z then
        do e <- getitem header "rows_examined";
        do x <- py_int e;
        do s' <- getitem header "rows_sent";
        do y <- py_float s';
        py_div (inject_Z x) y
      else Ok 0%Q
  | LongLockTime =>
      do s <- getitem header "lock_time"; py_float s
  end.

(** [Heuristic.__call__] *)
Definition call (self : Heuristic) (header event : gmap string str) : result (option level) :=
  do v <- calculate_val (class_of self) header event; Ok (check self v).

Definition build_heuristics : gmap string Heuristic :=
  list_to_map
    [ ("Slow query"%string,
        Heuristic_init SlowQuery (1 # 100000) (1 # 10000) (1 # 1000) (1 # 100) (1 # 10));
      ("Too many rows returned"%string,
        Heuristic_init TooManyRowsReturned 100 1000 10000 100000 100000);
      ("Too many rows examined"%string,
        Heuristic_init TooManyRowsExamined 100 1000 10000 100000 100000);
      ("Ratio of examined to returned is too high"%string,
        Heuristic_init RatioOfExaminedRowsTooHigh 10 100 1000 10000 100000);
      ("Long lock time"%string,
        Heuristic_init LongLockTime (1 # 100000) (1 # 10000) (1 # 1000) (1 # 100) (1 # 10)) ].

(** ** The dispatcher *)

(** What the program was started with: the heuristics, the minimum
    level (an integer, clamped by [main]) and the debug switch. *)
Record config := { heuristics : gmap string Heuristic; notification_level : Z; debug : bool }.

(** The clamping done by [main]. *)
Definition clamp_level (n : Z) : Z :=
  Z.min (NOTIFICATION_LEVELS L_critical) (Z.max (NOTIFICATION_LEVELS L_debug) n).

(** One notification: printed in debug mode, sent to Rollbar otherwise. *)
Record report := Report {
  r_printed : bool;
  r_name : string;
  r_level : level;
  r_header : gmap string str;
  r_data : gmap string str }.

(** The body of the loop of [process_event] for one heuristic. *)
Definition notify (cfg : config) (header event : gmap string str)
    (name : string) (lv : option level) : list report :=
  match lv with
  | Some l =>
      if (NOTIFICATION_LEVELS l >=? notification_level cfg)%Z
      then [Report (debug cfg) name l header event]
      else []
  | None => []
  end.

(** The loop of [process_event] over the items of the dictionary: the
    reports made, and the exception that stopped the loop if there was one. *)
Fixpoint process_items (cfg : config) (header event : gmap string str)
    (items : list (string * Heuristic)) : list report * option exn :=
  match items with
  | [] => ([], None)
  | (name, h) :: rest =>
      match call h header event with
      | Raise e => ([], Some e)
      | Ok lv =>
          let '(out, e) := process_items cfg header event rest in
          (notify cfg header event name lv ++ out, e)
      end
  end.

Definition process_event (cfg : config) (header event : gmap string str)
    : list report * option exn :=
  process_items cfg header event (map_to_list (heuristics cfg)).

(** ** The stream reassembler *)

(** The two variables of the loop of [process_input]. *)
Record pstate := PState { lines : str; current_header : option (gmap string str) }.

(** [IGNORE_REGEX.match(event['query'])], as a truth value. *)
Definition is_ignored (event : gmap string str) : bool :=
  match event !! "query"%string with
  | Some q => match re.match_ IGNORE_REGEX q with Some _ => true | None => false end
  | None => false
  end.

(** The dictionaries of the statement matches of a buffer, in order. *)
Definition events_of (tmp : str) : list (gmap string str) :=
  map re.groupdict (re.finditer QUERY_REGEX tmp).

(** One turn of the loop, for a non-empty [line]: the new state and the
    calls [process_event(current_header, event)] made, in order. *)
Definition step (st : pstate) (line : str)
    : pstate * list (gmap string str * gmap string str) :=
  let tmp := lines st ++ line in
  match re.search HEADER_REGEX tmp with
  | Some header => (PState [] (Some (re.groupdict header)), [])
  | None =>
      match current_header st with
      | Some h =>
          let evs := events_of tmp in
          (PState (match evs with [] => tmp | _ => [] end) (Some h),
           map (fun ev => (h, ev)) (List.filter (fun ev => negb (is_ignored ev)) evs))
      | None => (PState tmp None, [])
      end
  end.

Fixpoint run (st : pstate) (ls : list str)
    : pstate * list (gmap string str * gmap string str) :=
  match ls with
  | [] => (st, [])
  | l :: ls' =>
      let '(st1, out1) := step st l in
      let '(st2, out2) := run st1 ls' in
      (st2, out1 ++ out2)
  end.

(** The successive results of [sys.stdin.readline()]: each line with its
    line break, then what is left before the end of the input. *)
Fixpoint readlines (cur : str) (input : str) : list str :=
  match input with
  | [] => match cur with [] => [] | _ => [rev cur] end
  | c :: t =>
      if Ascii.eqb c NL then rev (c :: cur) :: readlines [] t
      else readlines (c :: cur) t
  end.

Definition initial : pstate := PState [] None.

(** [process_input]: the calls to [process_event] made while reading the
    whole input. *)
Definition process_input (stdin : str) : list (gmap string str * gmap string str) :=
  snd (run initial (readlines [] stdin)).

(** [main] after option parsing: every call is dispatched in turn, until
    one raises. *)
Fixpoint dispatch_all (cfg : config) (calls : list (gmap string str * gmap string str))
    : list report * option exn :=
  match calls with
  | [] => ([], None)
  | (h, ev) :: rest =>
      match process_event cfg h ev with
      | (out, Some e) => (out, Some e)
      | (out, None) =>
          let '(out', e) := dispatch_all cfg rest in (out ++ out', e)
      end
  end.

Definition main (level_option : Z) (debug_option : bool) (stdin : str)
    : list report * option exn :=
  dispatch_all {| heuristics := build_heuristics;
                  notification_level := clamp_level level_option;
                  debug := debug_option |}
               (process_input stdin).

(** The record given as an example at the top of the program. *)
Definition ex_log : str :=
  b "# Time: 121228 15:24:25" ++ [NL] ++
  b "# User@Host: user[db] @ host [10.10.10.10]" ++ [NL] ++
  b "# Query_time: 0.000255  Lock_time: 0.000044 Rows_sent: 590  Rows_examined: 590" ++ [NL] ++
  b "SET timestamp=1356737065;" ++ [NL] ++
  b "SELECT foo FROM bar" ++ [NL] ++
  b "WHERE x = 2;" ++ [NL].

(** * Definitions used in the statements *)

Definition header_flags : re.flags := re.Flags true false false.


Definition SEMI : ascii := ";"%char.

Definition is_digit (c : ascii) : bool := between 48 57 c.

(** Severity as a number: no finding is below every level. *)
Definition severity (r : option level) : Z :=
  match r with
  | None => -1
  | Some l => NOTIFICATION_LEVELS l
  end.

(** The fields of a header: what [groupdict] holds after a match of the
    header pattern. *)
Definition header_shape (h : gmap string str) : Prop :=
  exists d t u q1 q2 l1 l2 rs rx,
    h = list_to_map [ ("rows_examined"%string, rx); ("rows_sent"%string, rs);
                      ("lock_time"%string, l1 ++ "."%char :: l2);
                      ("query_seconds"%string, q1 ++ "."%char :: q2);
                      ("user_host"%string, u); ("time"%string, t); ("date"%string, d) ] /\
    (forallb is_digit q1 = true /\ q1 <> []) /\
    (forallb is_digit q2 = true /\ q2 <> []) /\
    (forallb is_digit l1 = true /\ l1 <> []) /\
    (forallb is_digit l2 = true /\ l2 <> []) /\
    (forallb is_digit rs = true /\ rs <> []) /\
    (forallb is_digit rx = true /\ rx <> []).

(** The level a heuristic gives, when its call returns. *)
Definition level_of (H : Heuristic) (header event : gmap string str) : option level :=
  match call H header event with
  | Ok lv => lv
  | Raise _ => None
  end.

(** A header block, as in the comment at the top of the program. *)
Definition ex_block : str :=
  b "# Time: 121228 15:24:25" ++ [NL] ++
  b "# User@Host: user[db] @ host [10.10.10.10]" ++ [NL] ++
  b "# Query_time: 0.000255  Lock_time: 0.000044 Rows_sent: 590  Rows_examined: 590" ++ [NL].

(** The match of the header pattern on that block, and its dictionary. *)
Definition ex_match : re.match_object :=
  match re.search HEADER_REGEX ex_block with
  | Some m => m
  | None => re.Match 0 0 []
  end.

Definition ex_header : gmap string str := re.groupdict ex_match.


Definition queries (calls : list (gmap string str * gmap string str)) : list (option str) :=
  map (fun c => snd c !! "query"%string) calls.

(** * Properties *)

(** ** The matcher *)

Section matcher.
Variable f : re.flags.

Lemma rep_match_sound a ah : forall lo hi k sn mk out,
  re.rep_match f a lo hi k sn ah mk = Some out ->
  exists txt post, ah = txt ++ post /\
    forallb (re.atom_match f a) txt = true /\ lo <= length txt /\
    re.within hi (length txt) /\
    k (re.MState (rev txt ++ sn) post mk) = Some out.
Proof.
  induction ah as [|c t IH]; intros lo hi k sn mk out H; cbn [re.rep_match] in H.
  - destruct (Nat.eqb_spec lo 0); [|discriminate].
    exists [], []. subst. repeat split; auto. destruct hi; simpl; lia.
  - assert (Hstop : (if Nat.eqb lo 0 then k (re.MState sn (c :: t) mk) else None) = Some out ->
      exists txt post, c :: t = txt ++ post /\
        forallb (re.atom_match f a) txt = true /\ lo <= length txt /\
        re.within hi (length txt) /\ k (re.MState (rev txt ++ sn) post mk) = Some out).
    { intros Hs. destruct (Nat.eqb_spec lo 0); [|discriminate].
      exists [], (c :: t). subst. repeat split; auto. destruct hi; simpl; lia. }
    destruct (re.atom_match f a c) eqn:Ea; cbn [andb] in H; [|auto].
    destruct (re.more hi) eqn:Em; [|auto].
    destruct (re.rep_match f a (pred lo) (re.dec hi) k (c :: sn) t mk) eqn:Er; [|auto].
    injection H as ->.
    apply IH in Er. destruct Er as (txt & post & -> & Hall & Hlo & Hhi & Hk).
    exists (c :: txt), post. cbn [forallb length]. rewrite Ea, Hall.
    repeat split; auto.
    + lia.
    + destruct hi as [[|n]|]; simpl in *; try discriminate; auto; lia.
    + simpl. rewrite <- app_assoc. exact Hk.
Qed.

Lemma span_app sn sn' txt post mk mk' :
  re.span (re.MState sn (txt ++ post) mk) (re.MState sn' post mk') = txt.
Proof.
  unfold re.span; cbn [re.ahead]. rewrite length_app.
  replace (length txt + length post - length post) with (length txt) by lia.
  rewrite firstn_app, Nat.sub_diag, firstn_all. simpl. apply app_nil_r.
Qed.

Lemma rmatch_sound r : forall k sn ah mk out,
  re.rmatch f r k (re.MState sn ah mk) = Some out ->
  exists txt post mk', ah = txt ++ post /\
    re.matches f r sn txt post mk mk' /\
    k (re.MState (rev txt ++ sn) post mk') = Some out.
Proof.
  induction r; intros k sn ah mk out H; cbn [re.rmatch re.seen re.ahead re.marks] in H.
  - exists [], ah, mk. simpl. auto.
  - destruct ah as [|c t]; [discriminate|].
    destruct (re.atom_match f a c) eqn:Ea; [|discriminate].
    exists [c], t, mk. simpl. eauto 6.
  - apply rep_match_sound in H. destruct H as (txt & post & -> & ? & ? & ? & ?).
    exists txt, post, mk. simpl. auto 6.
  - destruct (re.at_bol f sn) eqn:E; [|discriminate].
    exists [], ah, mk. simpl. auto.
  - destruct (re.at_eol f ah) eqn:E; [|discriminate].
    exists [], ah, mk. simpl. auto.
  - apply IHr1 in H. destruct H as (t1 & p1 & mk1 & -> & M1 & H).
    apply IHr2 in H. destruct H as (t2 & p2 & mk2 & -> & M2 & H).
    exists (t1 ++ t2), p2, mk2. rewrite <- app_assoc. split; [reflexivity|].
    split.
    + simpl. exists t1, t2, mk1. auto.
    + rewrite rev_app_distr, <- app_assoc. exact H.
  - destruct (re.rmatch f r1 k (re.MState sn ah mk)) eqn:E1.
    + injection H as ->. apply IHr1 in E1.
      destruct E1 as (txt & post & mk' & -> & M & Hk).
      exists txt, post, mk'. simpl. auto.
    + apply IHr2 in H. destruct H as (txt & post & mk' & -> & M & Hk).
      exists txt, post, mk'. simpl. auto.
  - apply IHr in H. destruct H as (txt & post & mk1 & -> & M & Hk).
    unfold re.close_group in Hk. rewrite span_app in Hk. cbn [re.seen re.ahead re.marks] in Hk.
    exists txt, post, ((name, txt) :: mk1). simpl. eauto.
  - apply IHr in H. destruct H as (txt & post & mk' & -> & M & Hk).
    exists txt, post, mk'. simpl. auto.
Qed.

Lemma rep_match_complete a txt : forall lo hi k sn post mk,
  forallb (re.atom_match f a) txt = true -> lo <= length txt ->
  re.within hi (length txt) ->
  is_Some (k (re.MState (rev txt ++ sn) post mk)) ->
  is_Some (re.rep_match f a lo hi k sn (txt ++ post) mk).
Proof.
  induction txt as [|c t IH]; intros lo hi k sn post mk Hall Hlo Hhi Hk.
  - simpl in *. assert (lo = 0) as -> by lia.
    destruct post; cbn [re.rep_match Nat.eqb]; auto.
    destruct (_ && _); auto. destruct (re.rep_match _ _ _ _ _ _ _ _); auto.
  - cbn [forallb] in Hall. apply andb_true_iff in Hall as [Ea Hall].
    cbn [app re.rep_match]. rewrite Ea.
    assert (re.more hi = true) as -> by (destruct hi as [[|n]|]; simpl in *; auto; lia).
    cbn [andb].
    destruct (IH (pred lo) (re.dec hi) k (c :: sn) post mk) as [m Hm]; auto.
    + simpl in Hlo. lia.
    + destruct hi; simpl in *; auto; lia.
    + simpl in Hk. rewrite <- app_assoc in Hk. exact Hk.
    + rewrite Hm. eauto.
Qed.

Lemma rmatch_complete r : forall k sn txt post mk mk',
  re.matches f r sn txt post mk mk' ->
  is_Some (k (re.MState (rev txt ++ sn) post mk')) ->
  is_Some (re.rmatch f r k (re.MState sn (txt ++ post) mk)).
Proof.
  induction r; intros k sn txt post mk mk' M Hk; cbn [re.matches] in M;
    cbn [re.rmatch re.seen re.ahead re.marks].
  - destruct M as [-> ->]. exact Hk.
  - destruct M as (c & -> & Ea & ->). simpl. rewrite Ea. exact Hk.
  - destruct M as (Hall & Hlo & Hhi & ->). now apply rep_match_complete.
  - destruct M as (-> & E & ->). rewrite E. exact Hk.
  - destruct M as (-> & E & ->). simpl. rewrite E. exact Hk.
  - destruct M as (t1 & t2 & mk1 & -> & M1 & M2).
    rewrite <- app_assoc. eapply IHr1; [exact M1|].
    eapply IHr2; [exact M2|].
    rewrite rev_app_distr, <- app_assoc in Hk. exact Hk.
  - destruct M as [M|M].
    + destruct (IHr1 k sn txt post mk mk' M Hk) as [m ->]. eauto.
    + destruct (re.rmatch f r1 k _); eauto.
  - destruct M as (mk1 & M & ->).
    eapply IHr; [exact M|].
    unfold re.close_group. rewrite span_app. exact Hk.
  - eapply IHr; eauto.
Qed.
End matcher.

Lemma match_here_sound p sn ah m :
  re.match_here p sn ah = Some m ->
  exists txt post, ah = txt ++ post /\
    re.matches (re.flg p) (re.pat p) sn txt post [] (re.m_groups m) /\
    re.m_start m = length sn /\ re.m_end m = length sn + length txt.
Proof.
  unfold re.match_here.
  destruct (re.rmatch _ _ _ _) as [s|] eqn:E; [|discriminate].
  intros H. injection H as <-.
  apply rmatch_sound in E. destruct E as (txt & post & mk' & -> & M & Hk).
  injection Hk as <-. cbn [re.seen re.marks re.m_groups re.m_start re.m_end].
  exists txt, post. rewrite length_app, length_rev. repeat split; auto. lia.
Qed.

Lemma match_here_complete p sn txt post mk' :
  re.matches (re.flg p) (re.pat p) sn txt post [] mk' ->
  is_Some (re.match_here p sn (txt ++ post)).
Proof.
  intros M. unfold re.match_here.
  destruct (rmatch_complete (re.flg p) (re.pat p) Some sn txt post [] mk' M) as [s ->]; eauto.
Qed.

Lemma search_from_sound p ah : forall sn m,
  re.search_from p sn ah = Some m ->
  exists pre ah', ah = pre ++ ah' /\ re.match_here p (rev pre ++ sn) ah' = Some m.
Proof.
  induction ah as [|c t IH]; intros sn m H; cbn [re.search_from] in H.
  - destruct (re.match_here p sn []) eqn:E; [|discriminate].
    injection H as ->. exists [], []. auto.
  - destruct (re.match_here p sn (c :: t)) eqn:E.
    + injection H as ->. exists [], (c :: t). auto.
    + apply IH in H. destruct H as (pre & ah' & -> & H).
      exists (c :: pre), ah'. split; [reflexivity|].
      simpl. rewrite <- app_assoc. exact H.
Qed.


(** A literal string of a case-sensitive pattern re.matches itself only. *)
Lemma matches_lits f s : re.IGNORECASE f = false ->
  forall sn txt post mk mk', re.matches f (re.lits s) sn txt post mk mk' -> txt = s /\ mk' = mk.
Proof.
  intros Hf. induction s as [|c t IH]; intros sn txt post mk mk' M; cbn [re.lits re.matches] in M.
  - tauto.
  - destruct M as (t1 & t2 & mk1 & -> & (c' & -> & Ea & ->) & M).
    apply IH in M as [-> ->]. split; [|reflexivity].
    cbn [re.atom_match] in Ea. unfold re.fold_case in Ea. rewrite Hf in Ea.
    apply Ascii.eqb_eq in Ea. now subst.
Qed.

Lemma matches_lits_intro f s sn post mk : re.matches f (re.lits s) sn s post mk mk.
Proof.
  revert sn. induction s as [|c t IH]; intros sn; cbn [re.lits re.matches]; [auto|].
  exists [c], t, mk. repeat split; auto.
  exists c. repeat split; auto. cbn [re.atom_match]. apply Ascii.eqb_refl.
Qed.


(** ** Numerals *)

Ltac by_cases_on_char c :=
  destruct c as [[|] [|] [|] [|] [|] [|] [|] [|]]; vm_compute; intros; congruence.

Lemma digit_not_space c : is_digit c = true -> re.is_space c = false.
Proof. by_cases_on_char c. Qed.

Lemma digit_not_point c : is_digit c = true -> Ascii.eqb c "." = false.
Proof. by_cases_on_char c. Qed.

Lemma digit_split_sign c t : is_digit c = true -> split_sign (c :: t) = (false, c :: t).
Proof.
  intros H. unfold split_sign.
  destruct c as [[|] [|] [|] [|] [|] [|] [|] [|]]; try reflexivity; vm_compute in H; discriminate.
Qed.

Lemma digit_val_some c : is_digit c = true -> exists d, digit_val c = Some d /\ (0 <= d)%Z.
Proof.
  unfold digit_val, is_digit. intros H. rewrite H. eexists; split; [reflexivity|].
  unfold between in H. apply andb_true_iff in H as [H _]. apply N.leb_le in H. lia.
Qed.

Lemma digit_val_digit c d : digit_val c = Some d -> is_digit c = true /\ (0 <= d)%Z.
Proof.
  intros H. assert (Hd : is_digit c = true).
  { unfold digit_val in H. unfold is_digit. destruct (between 48 57 c); congruence. }
  split; [exact Hd|]. destruct (digit_val_some c Hd) as (d' & E & ?). congruence.
Qed.

Lemma digits_val_some s : forall acc, forallb is_digit s = true -> (0 <= acc)%Z ->
  exists v, digits_val acc s = Some v /\ (0 <= v)%Z.
Proof.
  induction s as [|c t IH]; intros acc Hall Hacc; cbn [digits_val].
  - eauto.
  - cbn [forallb] in Hall. apply andb_true_iff in Hall as [Hc Hall].
    destruct (digit_val_some c Hc) as (d & -> & Hd). apply IH; auto. lia.
Qed.

Lemma digits_val_digits s : forall acc v, digits_val acc s = Some v -> (0 <= acc)%Z ->
  forallb is_digit s = true /\ (0 <= v)%Z.
Proof.
  induction s as [|c t IH]; intros acc v H Hacc; cbn [digits_val] in H.
  - injection H as <-. auto.
  - destruct (digit_val c) as [d|] eqn:Ed; [|discriminate].
    apply digit_val_digit in Ed as [Hc Hd].
    apply IH in H as [Hall Hv]; [|lia]. cbn [forallb]. rewrite Hc, Hall. auto.
Qed.

Lemma lstrip_no_space s :
  forallb (fun c => negb (re.is_space c)) s = true -> lstrip s = s.
Proof.
  destruct s as [|c t]; [reflexivity|]. cbn [forallb lstrip].
  intros H. apply andb_true_iff in H as [H _]. apply negb_true_iff in H. now rewrite H.
Qed.

Lemma strip_no_space s :
  forallb (fun c => negb (re.is_space c)) s = true -> strip s = s.
Proof.
  intros H. unfold strip. rewrite (lstrip_no_space s H).
  rewrite lstrip_no_space, rev_involutive; [reflexivity|].
  apply forallb_forall. intros c Hc. apply in_rev in Hc.
  rewrite forallb_forall in H. auto.
Qed.

Lemma digits_no_space s :
  forallb is_digit s = true -> forallb (fun c => negb (re.is_space c)) s = true.
Proof.
  rewrite !forallb_forall. intros H c Hc. now rewrite digit_not_space by auto.
Qed.

Lemma split_point_digits s : forallb is_digit s = true -> split_point s = (s, None).
Proof.
  induction s as [|c t IH]; cbn [forallb split_point]; [reflexivity|].
  intros H. apply andb_true_iff in H as [Hc Hall].
  now rewrite (digit_not_point c Hc), IH.
Qed.

Lemma split_point_app d1 d2 :
  forallb is_digit d1 = true -> split_point (d1 ++ "."%char :: d2) = (d1, Some d2).
Proof.
  induction d1 as [|c t IH]; cbn [forallb split_point app]; [reflexivity|].
  intros H. apply andb_true_iff in H as [Hc Hall].
  now rewrite (digit_not_point c Hc), IH.
Qed.

(** [int] reads every non-empty run of digits, as a non-negative integer. *)
Lemma py_int_digits s : forallb is_digit s = true -> s <> [] ->
  exists n, py_int s = Ok n /\ (0 <= n)%Z.
Proof.
  intros Hall Hne. unfold py_int.
  rewrite strip_no_space by now apply digits_no_space.
  destruct s as [|c t]; [congruence|].
  pose proof Hall as Hc. cbn [forallb] in Hc. apply andb_true_iff in Hc as [Hc _].
  rewrite (digit_split_sign c t Hc). cbn [nonempty_digits].
  destruct (digits_val_some (c :: t) 0 Hall) as (v & -> & Hv); [lia|]. eauto.
Qed.

(** [float] reads digits, a point and digits as a non-negative number. *)
Lemma py_float_decimal d1 d2 :
  forallb is_digit d1 = true -> d1 <> [] -> forallb is_digit d2 = true -> d2 <> [] ->
  exists q, py_float (d1 ++ "."%char :: d2) = Ok q /\ (0 <= q)%Q.
Proof.
  intros H1 N1 H2 N2. unfold py_float.
  rewrite strip_no_space.
  2:{ rewrite forallb_app. rewrite (digits_no_space d1 H1). cbn [forallb andb].
      rewrite (digits_no_space d2 H2). reflexivity. }
  destruct d1 as [|c t]; [congruence|].
  pose proof H1 as Hc. cbn [forallb] in Hc. apply andb_true_iff in Hc as [Hc _].
  cbn [app]. rewrite (digit_split_sign c _ Hc).
  change (c :: t ++ "."%char :: d2) with ((c :: t) ++ "."%char :: d2).
  rewrite (split_point_app _ d2 H1). unfold decimal.
  destruct (digits_val_some (c :: t) 0 H1) as (i & -> & Hi); [lia|].
  destruct (digits_val_some d2 0 H2) as (fr & -> & Hf); [lia|].
  destruct d2 as [|c2 t2]; [congruence|].
  eexists; split; [reflexivity|].
  unfold Qle; cbn [Qnum Qden]. nia.
Qed.

(** On a string that [int] reads as a positive integer, [float] gives the
    same number. *)
Lemma py_float_of_int s n : py_int s = Ok n -> (0 < n)%Z -> py_float s = Ok (inject_Z n).
Proof.
  unfold py_int, py_float. destruct (split_sign (strip s)) as [neg body].
  destruct body as [|c t]; cbn [nonempty_digits]; [discriminate|].
  destruct (digits_val 0 (c :: t)) as [v|] eqn:Ev; [|discriminate].
  intros H Hn. injection H as <-.
  apply digits_val_digits in Ev as Hd; [|lia]. destruct Hd as [Hall Hv].
  rewrite (split_point_digits _ Hall). unfold decimal. rewrite Ev. cbn [digits_val].
  destruct neg; [lia|]. reflexivity.
Qed.

Lemma py_div_positive x n : (0 < n)%Z -> py_div x (inject_Z n) = Ok (x / inject_Z n)%Q.
Proof.
  intros Hn. unfold py_div. destruct (Qeq_bool (inject_Z n) 0) eqn:E; [|reflexivity].
  apply Qeq_bool_eq in E. unfold Qeq in E. simpl in E. lia.
Qed.




(** ** The header pattern *)

Lemma digit_run f txt : re.IGNORECASE f = false ->
  forallb (re.atom_match f re.digit) txt = true -> forallb is_digit txt = true.
Proof.
  intros Hf H. rewrite forallb_forall in *. intros c Hc. specialize (H c Hc).
  cbn [re.atom_match re.digit] in H. unfold re.fold_case in H. now rewrite Hf in H.
Qed.

Ltac break_matches :=
  repeat match goal with
         | H : exists _, _ |- _ => destruct H
         | H : _ /\ _ |- _ => destruct H
         | H : re.matches _ (re.lits _) _ _ _ _ _ |- _ =>
             apply matches_lits in H; [|reflexivity]
         | H : forallb (re.atom_match _ re.digit) _ = true |- _ =>
             apply digit_run in H; [|reflexivity]
         end.

(** What a match of the query-stats line puts in the groups. *)
Lemma stats_groups sn txt post mk mk' :
  re.matches header_flags QUERY_STATS_PATTERN sn txt post mk mk' ->
  exists q1 q2 l1 l2 rs rx,
    mk' = ("rows_examined"%string, rx) :: ("rows_sent"%string, rs) ::
          ("lock_time"%string, l1 ++ "."%char :: l2) ::
          ("query_seconds"%string, q1 ++ "."%char :: q2) :: mk /\
    (forallb is_digit q1 = true /\ q1 <> []) /\
    (forallb is_digit q2 = true /\ q2 <> []) /\
    (forallb is_digit l1 = true /\ l1 <> []) /\
    (forallb is_digit l2 = true /\ l2 <> []) /\
    (forallb is_digit rs = true /\ rs <> []) /\
    (forallb is_digit rx = true /\ rx <> []).
Proof.
  unfold QUERY_STATS_PATTERN.
  cbn [re.matches re.seq re.plus re.star re.times].
  intros M. break_matches. subst.
  repeat match goal with
         | H : 1 <= length ?x |- _ =>
             assert (x <> []) by (intros ->; simpl in H; lia); clear H
         end.
  rewrite !app_nil_r.
  do 6 eexists. split; [reflexivity|]. auto 20.
Qed.

Lemma time_groups sn txt post mk mk' :
  re.matches header_flags TIME_PATTERN sn txt post mk mk' ->
  exists d t, mk' = ("time"%string, t) :: ("date"%string, d) :: mk.
Proof.
  unfold TIME_PATTERN.
  cbn [re.matches re.seq re.plus re.star re.times].
  intros M. break_matches. subst. eauto.
Qed.

Lemma user_host_groups sn txt post mk mk' :
  re.matches header_flags USER_HOST_PATTERN sn txt post mk mk' ->
  exists u, mk' = ("user_host"%string, u) :: mk.
Proof.
  unfold USER_HOST_PATTERN.
  cbn [re.matches re.seq re.plus re.star re.times].
  intros M. break_matches. subst. eauto.
Qed.

Lemma header_match_shape buf m :
  re.search HEADER_REGEX buf = Some m -> header_shape (re.groupdict m).
Proof.
  intros H. apply search_from_sound in H. destruct H as (pre & ah & _ & H).
  apply match_here_sound in H. destruct H as (txt & post & _ & M & _).
  unfold HEADER_REGEX in M. cbn [re.pat re.flg re.seq] in M.
  change (re.Flags true false false) with header_flags in M.
  cbn [re.matches] in M.
  destruct M as (t1 & r1 & mk1 & _ & M1 & t2 & r2 & mk2 & _ & Mn1 & t3 & r3 & mk3 & _ & M2 &
                 t4 & r4 & mk4 & _ & Mn2 & t5 & r5 & mk5 & _ & M3 & _ & E).
  apply time_groups in M1. destruct M1 as (d & t & ->).
  apply matches_lits in Mn1; [|reflexivity]. destruct Mn1 as [? ->].
  apply user_host_groups in M2. destruct M2 as (u & ->).
  apply matches_lits in Mn2; [|reflexivity]. destruct Mn2 as [? ->].
  apply stats_groups in M3.
  destruct M3 as (q1 & q2 & l1 & l2 & rs & rx & -> & ?).
  unfold re.groupdict. rewrite E.
  exists d, t, u, q1, q2, l1, l2, rs, rx. split; [reflexivity|assumption].
Qed.

Lemma header_shape_fields h : header_shape h ->
  (exists s q, h !! "query_seconds"%string = Some s /\ py_float s = Ok q /\ (0 <= q)%Q) /\
  (exists s q, h !! "lock_time"%string = Some s /\ py_float s = Ok q /\ (0 <= q)%Q) /\
  (exists s n, h !! "rows_sent"%string = Some s /\ py_int s = Ok n /\ (0 <= n)%Z) /\
  (exists s n, h !! "rows_examined"%string = Some s /\ py_int s = Ok n /\ (0 <= n)%Z).
Proof.
  intros (d & t & u & q1 & q2 & l1 & l2 & rs & rx & -> & [? ?] & [? ?] & [? ?] & [? ?] & [? ?] & [? ?]).
  destruct (py_float_decimal q1 q2) as (q & ? & ?); auto.
  destruct (py_float_decimal l1 l2) as (l & ? & ?); auto.
  destruct (py_int_digits rs) as (ns & ? & ?); auto.
  destruct (py_int_digits rx) as (nx & ? & ?); auto.
  repeat split; do 2 eexists; (split; [reflexivity|]); eauto.
Qed.

(** On a matched header every [calculate_val] returns a number. *)
Lemma header_shape_calculate h : header_shape h ->
  forall c event, exists v, calculate_val c h event = Ok v.
Proof.
  intros Hs c event. apply header_shape_fields in Hs.
  destruct Hs as ((qs & q & Eq & Fq & _) & (ls & l & El & Fl & _) &
                  (rs & n & Er & Fr & Hn) & (rx & x & Ex & Fx & _)).
  destruct c; unfold calculate_val, getitem;
    rewrite ?Eq, ?El, ?Er, ?Ex; cbn [bind]; rewrite ?Fq, ?Fl, ?Fr, ?Fx; cbn [bind]; eauto.
  destruct (Z.gtb_spec n 0) as [Hp|_]; [|eauto].
  cbn [bind]. rewrite ?Ex, ?Fx, ?Er. cbn [bind]. rewrite ?Ex, ?Fx, ?Er. cbn [bind].
  rewrite (py_float_of_int rs n Fr Hp). cbn [bind].
  rewrite py_div_positive by exact Hp. eauto.
Qed.

Lemma header_shape_call h : header_shape h ->
  forall H event, exists lv, call H h event = Ok lv.
Proof.
  intros Hs H event. unfold call.
  destruct (header_shape_calculate h Hs (class_of H) event) as [v ->]. cbn [bind]. eauto.
Qed.

(** ** The reassembler: where the emitted pairs come from *)

Lemma step_emitted st line h e :
  In (h, e) (snd (step st line)) ->
  current_header st = Some h /\
  re.search HEADER_REGEX (lines st ++ line) = None /\
  In e (events_of (lines st ++ line)) /\ is_ignored e = false.
Proof.
  unfold step. destruct (re.search HEADER_REGEX (lines st ++ line)); [contradiction|].
  destruct (current_header st) as [h'|]; [|contradiction].
  cbn [snd]. rewrite in_map_iff. intros (ev & E & Hin). injection E as <- <-.
  apply filter_In in Hin as [Hin Hig]. apply negb_true_iff in Hig. auto.
Qed.

Lemma step_header st line :
  current_header (fst (step st line)) = current_header st \/
  exists m, re.search HEADER_REGEX (lines st ++ line) = Some m /\
            current_header (fst (step st line)) = Some (re.groupdict m).
Proof.
  unfold step. destruct (re.search HEADER_REGEX (lines st ++ line)) as [m|]; [eauto|].
  destruct (current_header st) as [h|] eqn:E; cbn [fst current_header]; auto.
Qed.

Lemma run_cons st l ls :
  run st (l :: ls) =
  (fst (run (fst (step st l)) ls), snd (step st l) ++ snd (run (fst (step st l)) ls)).
Proof.
  cbn [run]. destruct (step st l) as [st1 out1]. cbn [fst snd].
  destruct (run st1 ls) as [st2 out2]. reflexivity.
Qed.

(** Every emitted pair carries a header that satisfies whatever all
    matched headers satisfy, and an event that is a statement match kept
    by the ignore test. *)
Lemma run_emitted (P : gmap string str -> Prop) :
  (forall buf m, re.search HEADER_REGEX buf = Some m -> P (re.groupdict m)) ->
  forall ls st h e,
    (forall h0, current_header st = Some h0 -> P h0) ->
    In (h, e) (snd (run st ls)) ->
    P h /\ is_ignored e = false /\ exists tmp, In e (events_of tmp).
Proof.
  intros HP. induction ls as [|l ls IH]; intros st h e Hst Hin.
  - contradiction.
  - rewrite run_cons in Hin. cbn [snd] in Hin. apply in_app_or in Hin as [Hin|Hin].
    + apply step_emitted in Hin as (Hh & _ & He & Hi). eauto.
    + eapply IH; [|exact Hin].
      intros h0 Hh0. destruct (step_header st l) as [E|(m & Hm & E)]; rewrite E in Hh0.
      * auto.
      * injection Hh0 as <-. eauto.
Qed.

Lemma process_input_emitted stdin h e :
  In (h, e) (process_input stdin) -> header_shape h /\ is_ignored e = false.
Proof.
  intros Hin. unfold process_input in Hin.
  eapply (run_emitted header_shape header_match_shape) in Hin.
  - tauto.
  - cbn. discriminate.
Qed.

(** ** The dispatcher *)

Lemma process_items_ok cfg header event items :
  (forall H, exists lv, call H header event = Ok lv) ->
  process_items cfg header event items =
  (flat_map (fun '(name, H) => notify cfg header event name (level_of H header event)) items,
   None).
Proof.
  intros Hok. induction items as [|[name H] rest IH]; cbn [process_items flat_map]; [reflexivity|].
  unfold level_of at 1. destruct (Hok H) as [lv ->]. rewrite IH. reflexivity.
Qed.

Lemma in_notify cfg header event name lv r :
  In r (notify cfg header event name lv) <->
  exists l, lv = Some l /\ (notification_level cfg <= NOTIFICATION_LEVELS l)%Z /\
            r = Report (debug cfg) name l header event.
Proof.
  unfold notify. destruct lv as [l|].
  - destruct (Z.geb_spec (NOTIFICATION_LEVELS l) (notification_level cfg)); cbn [In].
    + split.
      * intros [<-|[]]. exists l. repeat split; auto.
      * intros (l' & E & _ & ->). injection E as <-. auto.
    + split; [contradiction|]. intros (l' & E & ? & _). injection E as <-. lia.
  - cbn [In]. split; [contradiction|]. intros (l & E & _). discriminate.
Qed.



(** ** The heuristic engine *)

Lemma Qle_bool_reflect (x y : Q) : reflect (x <= y)%Q (Qle_bool x y).
Proof.
  destruct (Qle_bool x y) eqn:E; constructor.
  - now apply Qle_bool_iff.
  - intros H. apply Qle_bool_iff in H. congruence.
Qed.

Lemma Qlt_bool_reflect (x y : Q) : reflect (x < y)%Q (Qlt_bool x y).
Proof.
  unfold Qlt_bool. destruct (Qle_bool_reflect y x); constructor; lra.
Qed.

Ltac case_head :=
  match goal with
  | |- context [if Qle_bool ?x ?y && true then _ else _] =>
      destruct (Qle_bool_reflect x y); cbn [andb]
  | |- context [if Qle_bool ?x ?y && Qlt_bool ?u ?v then _ else _] =>
      destruct (Qle_bool_reflect x y); [destruct (Qlt_bool_reflect u v)|]; cbn [andb]
  end.

(** With ascending boundaries the metric falls in exactly one of six
    cases, and [check] answers accordingly. *)
Lemma check_cases (c : heuristic_class) (b0 b1 b2 b3 b4 m : Q) :
  (b0 <= b1)%Q -> (b1 <= b2)%Q -> (b2 <= b3)%Q -> (b3 <= b4)%Q ->
  let h := Heuristic_init c b0 b1 b2 b3 b4 in
  (check h m = Some L_critical /\ (b4 <= m)%Q) \/
  (check h m = Some L_error /\ (b3 <= m)%Q /\ (m < b4)%Q) \/
  (check h m = Some L_warning /\ (b2 <= m)%Q /\ (m < b3)%Q) \/
  (check h m = Some L_info /\ (b1 <= m)%Q /\ (m < b2)%Q) \/
  (check h m = Some L_debug /\ (b0 <= m)%Q /\ (m < b1)%Q) \/
  (check h m = None /\ (m < b0)%Q).
Proof.
  intros H01 H12 H23 H34 h.
  unfold h, check, Heuristic_init; cbn [ranges rev app check_ranges].
  case_head; [tauto|].
  case_head; [tauto| exfalso; lra |].
  case_head; [tauto| exfalso; lra |].
  case_head; [tauto| exfalso; lra |].
  case_head; [tauto| exfalso; lra |].
  repeat right. split; [reflexivity | lra].
Qed.

(** C1. With ascending boundaries, [check] returns critical exactly on
    [b4, oo), error on [b3, b4), warning on [b2, b3), info on [b1, b2),
    debug on [b0, b1) and no finding below [b0]; the ranges are tried from
    the highest one down. *)
Theorem check_half_open_ranges (c : heuristic_class) (b0 b1 b2 b3 b4 m : Q) :
  (b0 <= b1)%Q -> (b1 <= b2)%Q -> (b2 <= b3)%Q -> (b3 <= b4)%Q ->
  let h := Heuristic_init c b0 b1 b2 b3 b4 in
  map (fun r => fst (fst r)) (ranges h) = [L_critical; L_error; L_warning; L_info; L_debug] /\
  (check h m = Some L_critical <-> (b4 <= m)%Q) /\
  (check h m = Some L_error <-> (b3 <= m)%Q /\ (m < b4)%Q) /\
  (check h m = Some L_warning <-> (b2 <= m)%Q /\ (m < b3)%Q) /\
  (check h m = Some L_info <-> (b1 <= m)%Q /\ (m < b2)%Q) /\
  (check h m = Some L_debug <-> (b0 <= m)%Q /\ (m < b1)%Q) /\
  (check h m = None <-> (m < b0)%Q).
Proof.
  intros H01 H12 H23 H34 h. split; [reflexivity|].
  destruct (check_cases c b0 b1 b2 b3 b4 m H01 H12 H23 H34)
    as [[E ?]|[[E ?]|[[E ?]|[[E ?]|[[E ?]|[E ?]]]]]];
    fold h in E; rewrite E;
    repeat split; intros; try discriminate; try lra.
Qed.

Lemma check_half_open_ranges_witness :
  check (Heuristic_init SlowQuery 10 100 1000 10000 100000) 250 = Some L_info <->
  (100 <= 250)%Q /\ (250 < 1000)%Q.
Proof.
  refine (proj1 (proj2 (proj2 (proj2 (proj2
    (check_half_open_ranges SlowQuery 10 100 1000 10000 100000 250 _ _ _ _)))))).
  all: vm_compute; discriminate.
Defined.

(** C5. With ascending boundaries, a larger metric never gets a lower
    severity, in the order no finding < debug < info < warning < error <
    critical. *)
Theorem check_monotone (c : heuristic_class) (b0 b1 b2 b3 b4 m1 m2 : Q) :
  (b0 <= b1)%Q -> (b1 <= b2)%Q -> (b2 <= b3)%Q -> (b3 <= b4)%Q ->
  (m1 <= m2)%Q ->
  let h := Heuristic_init c b0 b1 b2 b3 b4 in
  (severity (check h m1) <= severity (check h m2))%Z.
Proof.
  intros H01 H12 H23 H34 Hm h.
  destruct (check_cases c b0 b1 b2 b3 b4 m1 H01 H12 H23 H34)
    as [[E1 ?]|[[E1 ?]|[[E1 ?]|[[E1 ?]|[[E1 ?]|[E1 ?]]]]]];
  destruct (check_cases c b0 b1 b2 b3 b4 m2 H01 H12 H23 H34)
    as [[E2 ?]|[[E2 ?]|[[E2 ?]|[[E2 ?]|[[E2 ?]|[E2 ?]]]]]];
  fold h in E1, E2; rewrite E1, E2; cbn [severity NOTIFICATION_LEVELS];
  first [ apply Z.leb_le; reflexivity | exfalso; lra ].
Qed.

Lemma check_monotone_witness :
  (severity (check (Heuristic_init LongLockTime 10 100 1000 10000 100000) 5) <=
   severity (check (Heuristic_init LongLockTime 10 100 1000 10000 100000) 2500))%Z.
Proof.
  apply (check_monotone LongLockTime 10 100 1000 10000 100000 5 2500);
    vm_compute; discriminate.
Defined.

Lemma in_by_decide {A : Type} `{EqDecision A} (x : A) (l : list A) :
  existsb (fun y => bool_decide (y = x)) l = true -> In x l.
Proof.
  rewrite existsb_exists. intros (y & Hy & E). apply bool_decide_eq_true in E. now subst.
Qed.






(** No call made by the reassembler makes a heuristic raise. *)
Lemma dispatch_all_ok cfg calls :
  (forall h e, In (h, e) calls -> header_shape h) ->
  snd (dispatch_all cfg calls) = None.
Proof.
  induction calls as [|[h e] rest IH]; intros Hs; cbn [dispatch_all]; [reflexivity|].
  unfold process_event.
  rewrite process_items_ok by (intros H; apply header_shape_call; eapply Hs; left; reflexivity).
  specialize (IH (fun h' e' Hin => Hs h' e' (or_intror Hin))).
  destruct (dispatch_all cfg rest) as [out' ex]. exact IH.
Qed.

Lemma main_returns lv dbg stdin : snd (main lv dbg stdin) = None.
Proof.
  unfold main. apply dispatch_all_ok.
  intros h e Hin. now apply process_input_emitted in Hin.
Qed.

(** The record of the example is read as one header and two statements,
    of which the first is dropped; at the default level nothing is
    reported, and at level 0 the slow-query heuristic reports info. *)
Example ex_log_calls :
  queries (process_input ex_log) =
  [Some (b "SELECT foo FROM bar" ++ [NL] ++ b "WHERE x = 2;")].
Proof. vm_compute. reflexivity. Qed.

Example ex_log_reports :
  main 2 true ex_log = ([], None) /\
  In ("Slow query"%string, L_info)
     (map (fun r => (r_name r, r_level r)) (fst (main 0 true ex_log))).
Proof.
  split.
  - vm_compute. reflexivity.
  - apply in_by_decide. vm_compute. reflexivity.
Qed.





(** C9. While a header is active, a line that gives the buffer at least
    one statement match empties the whole buffer, so that nothing of it is
    seen by the later turns; when neither the header pattern nor a statement
    matches (or no header is active), the buffer is kept with the line
    appended and nothing is emitted. *)
Theorem statement_match_clears_buffer :
  (forall st line h,
     re.search HEADER_REGEX (lines st ++ line) = None ->
     current_header st = Some h ->
     re.finditer QUERY_REGEX (lines st ++ line) <> [] ->
     fst (step st line) = PState [] (Some h) /\
     forall rest,
       run st (line :: rest) =
       (fst (run (PState [] (Some h)) rest),
        snd (step st line) ++ snd (run (PState [] (Some h)) rest))) /\
  (forall st line,
     re.search HEADER_REGEX (lines st ++ line) = None ->
     current_header st = None \/ re.finditer QUERY_REGEX (lines st ++ line) = [] ->
     step st line = (PState (lines st ++ line) (current_header st), [])).
Proof.
  split.
  - intros st line h Hs Hh Hq.
    assert (E : fst (step st line) = PState [] (Some h)).
    { unfold step, events_of. rewrite Hs, Hh. cbn [fst].
      destruct (re.finditer QUERY_REGEX (lines st ++ line)); [congruence|reflexivity]. }
    split; [exact E|]. intros rest. rewrite run_cons, E. reflexivity.
  - intros st line Hs Hc. unfold step, events_of. rewrite Hs.
    destruct (current_header st) as [h|]; [|reflexivity].
    destruct Hc as [Hc|Hc]; [discriminate|]. rewrite Hc. reflexivity.
Qed.

Lemma statement_match_clears_buffer_witness :
  fst (step (PState (b "SELECT 2;x" ++ [NL]) (Some ex_header)) (b "SELECT 1;" ++ [NL])) =
  PState [] (Some ex_header).
Proof.
  apply (proj1 statement_match_clears_buffer
           (PState (b "SELECT 2;x" ++ [NL]) (Some ex_header)) (b "SELECT 1;" ++ [NL]) ex_header).
  - vm_compute. reflexivity.
  - reflexivity.
  - vm_compute. discriminate.
Defined.

(** ** The statement pattern *)




















(** ** The ignore pattern *)

Lemma matches_seq_cons f r rs sn t1 t2 post mk mk1 mk' :
  re.matches f r sn t1 (t2 ++ post) mk mk1 ->
  re.matches f (re.seq rs) (rev t1 ++ sn) t2 post mk1 mk' ->
  re.matches f (re.seq (r :: rs)) sn (t1 ++ t2) post mk mk'.
Proof. intros M1 M2. cbn [re.seq re.matches]. eauto 6. Qed.

Lemma matches_seq_nil f sn post mk : re.matches f (re.seq []) sn [] post mk mk.
Proof. cbn. auto. Qed.

Lemma matches_run f a lo txt sn post mk :
  forallb (re.atom_match f a) txt = true -> lo <= length txt ->
  re.matches f (re.Rep a lo None) sn txt post mk mk.
Proof. intros. cbn. auto. Qed.

Lemma any_run f txt : ~ In NL txt -> forallb (re.atom_match f re.Any) txt = true.
Proof.
  intros H. apply forallb_forall. intros c Hc. cbn. apply negb_true_iff.
  apply Ascii.eqb_neq. intros ->. contradiction.
Qed.

Lemma digit_atom_run f txt : re.IGNORECASE f = false ->
  forallb is_digit txt = true -> forallb (re.atom_match f re.digit) txt = true.
Proof.
  intros Hf H. rewrite forallb_forall in *. intros c Hc. specialize (H c Hc).
  cbn [re.atom_match re.digit]. unfold re.fold_case. now rewrite Hf.
Qed.

(** [use <db>;] on one line is matched by the ignore pattern. *)
Lemma ignore_use db : ~ In NL db ->
  is_Some (re.match_ IGNORE_REGEX (b "use " ++ db ++ [SEMI])).
Proof.
  intros Hdb. unfold re.match_.
  rewrite <- (app_nil_r (b "use " ++ db ++ [SEMI])).
  eapply match_here_complete with (mk' := []).
  unfold IGNORE_REGEX, IGNORE_PATTERNS. cbn [re.pat re.flg join_alternatives].
  cbn [re.matches]. left.
  eapply (matches_seq_cons _ _ _ _ [] _); [solve [cbn; repeat split; auto with arith]|].
  eapply (matches_seq_cons _ _ _ _ [] _); [solve [cbn; repeat split; auto with arith]|].
  eapply (matches_seq_cons _ _ _ _ (b "use ") _); [apply matches_lits_intro|].
  eapply (matches_seq_cons _ _ _ _ db _); [apply matches_run; [now apply any_run|lia]|].
  rewrite <- (app_nil_r [SEMI]).
  eapply (matches_seq_cons _ _ _ _ [SEMI] _); [apply (matches_lits_intro _ [SEMI])|].
  eapply (matches_seq_cons _ _ _ _ [] []); [solve [cbn; repeat split; auto with arith]|].
  apply matches_seq_nil.
Qed.

(** [SET timestamp=<digits>;] is matched by the ignore pattern. *)
Lemma ignore_set_timestamp ds : forallb is_digit ds = true -> ds <> [] ->
  is_Some (re.match_ IGNORE_REGEX (b "SET timestamp=" ++ ds ++ [SEMI])).
Proof.
  intros Hds Hne. unfold re.match_.
  rewrite <- (app_nil_r (b "SET timestamp=" ++ ds ++ [SEMI])).
  eapply match_here_complete with (mk' := []).
  unfold IGNORE_REGEX, IGNORE_PATTERNS. cbn [re.pat re.flg join_alternatives].
  cbn [re.matches]. right.
  eapply (matches_seq_cons _ _ _ _ [] _); [solve [cbn; repeat split; auto with arith]|].
  eapply (matches_seq_cons _ _ _ _ [] _); [solve [cbn; repeat split; auto with arith]|].
  eapply (matches_seq_cons _ _ _ _ (b "SET timestamp=") _); [apply matches_lits_intro|].
  eapply (matches_seq_cons _ _ _ _ ds _).
  { apply matches_run; [now apply digit_atom_run|]. destruct ds; [congruence|simpl; lia]. }
  rewrite <- (app_nil_r [SEMI]).
  eapply (matches_seq_cons _ _ _ _ [SEMI] _); [apply (matches_lits_intro _ [SEMI])|].
  eapply (matches_seq_cons _ _ _ _ [] []); [solve [cbn; repeat split; auto with arith]|].
  apply matches_seq_nil.
Qed.

Lemma is_ignored_intro ev q :
  ev !! "query"%string = Some q -> is_Some (re.match_ IGNORE_REGEX q) -> is_ignored ev = true.
Proof. intros E [m Hm]. unfold is_ignored. now rewrite E, Hm. Qed.

Lemma process_items_reports cfg header event items r :
  In r (fst (process_items cfg header event items)) ->
  r_header r = header /\ r_data r = event.
Proof.
  induction items as [|[name H] rest IH]; cbn [process_items]; [contradiction|].
  destruct (call H header event) as [lv|ex]; [|contradiction].
  destruct (process_items cfg header event rest) as [out ex]. cbn [fst] in *.
  rewrite in_app_iff. intros [Hr|Hr]; [|auto].
  apply in_notify in Hr as (l & _ & _ & ->). auto.
Qed.

Lemma dispatch_all_reports cfg calls r :
  In r (fst (dispatch_all cfg calls)) -> In (r_header r, r_data r) calls.
Proof.
  induction calls as [|[h e] rest IH]; cbn [dispatch_all]; [contradiction|].
  unfold process_event.
  destruct (process_items cfg h e (map_to_list (heuristics cfg))) as [out ex] eqn:E.
  assert (Hout : In r out -> In (r_header r, r_data r) ((h, e) :: rest)).
  { intros Hr. left. destruct (process_items_reports cfg h e (map_to_list (heuristics cfg)) r) as [-> ->];
      [now rewrite E|reflexivity]. }
  destruct ex; cbn [fst]; [exact Hout|].
  destruct (dispatch_all cfg rest) as [out' ex']. cbn [fst] in *.
  rewrite in_app_iff. intros [Hr|Hr]; [auto|right; auto].
Qed.

(** C4. A statement [use <db>;] on one line and a statement
    [SET timestamp=<digits>;] are ignorable; no ignorable event is ever
    handed to [process_event], and no report of a run carries one. *)
Theorem ignorable_never_forwarded :
  (forall db ev, ~ In NL db ->
     ev !! "query"%string = Some (b "use " ++ db ++ b ";") -> is_ignored ev = true) /\
  (forall ds ev, forallb is_digit ds = true -> ds <> [] ->
     ev !! "query"%string = Some (b "SET timestamp=" ++ ds ++ b ";") -> is_ignored ev = true) /\
  (forall stdin h ev, In (h, ev) (process_input stdin) -> is_ignored ev = false) /\
  (forall lv dbg stdin r, In r (fst (main lv dbg stdin)) -> is_ignored (r_data r) = false).
Proof.
  repeat split.
  - intros db ev Hdb E. eapply is_ignored_intro; [exact E|]. now apply ignore_use.
  - intros ds ev Hds Hne E. eapply is_ignored_intro; [exact E|].
    now apply ignore_set_timestamp.
  - intros stdin h ev Hin. now apply process_input_emitted in Hin.
  - intros lv dbg stdin r Hr. unfold main in Hr. apply dispatch_all_reports in Hr.
    now apply process_input_emitted in Hr.
Qed.

Lemma ignorable_never_forwarded_witness :
  is_ignored {[ "query"%string := b "use " ++ b "mydb" ++ b ";" ]} = true.
Proof.
  apply (proj1 ignorable_never_forwarded (b "mydb")).
  - vm_compute. intros H. decompose [or] H; try discriminate; contradiction.
  - reflexivity.
Defined.

(** C10. The statement pattern is compiled case-insensitive and the ignore
    pattern is not: [USE mydb;] and [set timestamp=1356737065;] are not
    ignorable and are handed to [process_event], where [use mydb;] and
    [SET timestamp=1356737065;] are dropped. *)
Theorem ignore_is_case_sensitive :
  re.IGNORECASE (re.flg QUERY_REGEX) = true /\
  re.IGNORECASE (re.flg IGNORE_REGEX) = false /\
  queries (process_input (ex_block ++ b "use mydb;" ++ [NL])) = [] /\
  queries (process_input (ex_block ++ b "USE mydb;" ++ [NL])) = [Some (b "USE mydb;")] /\
  queries (process_input (ex_block ++ b "SET timestamp=1356737065;" ++ [NL])) = [] /\
  queries (process_input (ex_block ++ b "set timestamp=1356737065;" ++ [NL])) =
    [Some (b "set timestamp=1356737065;")] /\
  re.match_ IGNORE_REGEX (b "USE mydb;") = None /\
  re.match_ IGNORE_REGEX (b "set timestamp=1356737065;") = None.
Proof. repeat split; vm_compute; reflexivity. Qed.
